(** * Agano: thread-ownership and lock-scoped guards

    A shallow embedding of [agano/include/agano.hpp]:
    - the capability classifier ([send_tag_v], [Send], [Sync], [Mutex]),
      as boolean functions over a small universe of C++ types;
    - [ThreadBound<T>], as methods in a state-and-failure monad over a store
      of guard objects, run by a calling thread;
    - [Synced<T, M>] and [Locked<T, M>], as operations on a store of lock
      owners, with an interleaving step relation for several threads. *)

From stdpp Require Import gmap strings list pretty.

(** ** Capability classifier (agano.hpp, lines 14-28 and 224-234) *)

Module Capability.

(** A user class, as far as the concepts can see it: whether it has
    usable move operations, and whether it has (non-const) [lock()] and
    [unlock()] members.  No such class has a [send_tag_v] specialization. *)
Record class_decl := ClassDecl {
  class_name : string;
  class_movable : bool;
  class_lock : bool;
  class_unlock : bool
}.

(** The types the header talks about.  [volatile] does not occur in the
    library and is left out. *)
Inductive cpp_type :=
| TInt
| TStdMutex
| TClass (d : class_decl)
| TSynced (T M : cpp_type)
| TLocked (T M : cpp_type)
| TThreadBound (T : cpp_type)
| TConst (T : cpp_type)
| TLRef (T : cpp_type)
| TRRef (T : cpp_type).

Definition remove_reference_t (T : cpp_type) : cpp_type :=
  match T with
  | TLRef U | TRRef U => U
  | _ => T
  end.

Definition remove_cv_t (T : cpp_type) : cpp_type :=
  match T with
  | TConst U => U
  | _ => T
  end.

Definition remove_cvref_t (T : cpp_type) : cpp_type :=
  remove_cv_t (remove_reference_t T).

(** [std::movable]: an object type that is move constructible, move
    assignable and swappable.  [Synced] (lines 79-80) and [Locked]
    (lines 42-43) delete both move operations, [std::mutex] has none;
    [ThreadBound<T>] declares both (lines 139 and 146) for a movable [T].
    References are not object types, a const object cannot be assigned. *)
Fixpoint movable (T : cpp_type) : bool :=
  match T with
  | TInt => true
  | TStdMutex => false
  | TClass d => class_movable d
  | TSynced _ _ => false
  | TLocked _ _ => false
  | TThreadBound U => movable U
  | TConst _ => false
  | TLRef _ | TRRef _ => false
  end.

(** [concept Mutex]: [obj.lock()] and [obj.unlock()] are well formed for
    [T obj]. *)
Definition Mutex (T : cpp_type) : bool :=
  match remove_reference_t T with
  | TStdMutex => true
  | TClass d => class_lock d && class_unlock d
  | _ => false
  end.

(** [send_tag_v]: the primary template is [false]; the specializations
    are [Synced<T, M>], [Synced<T, M>&] and [const Synced<T, M>&] for
    [Send T] and [Mutex M], and [int].  The constraint [Send T] of the
    [Synced] specializations is written out in place. *)
Fixpoint send_tag_v (T : cpp_type) : bool :=
  let Send_ (U : cpp_type) :=
    send_tag_v (remove_cvref_t U) && movable (remove_cvref_t U) in
  match T with
  | TInt => true
  | TSynced U M => Send_ U && Mutex M
  | TLRef (TSynced U M) => Send_ U && Mutex M
  | TLRef (TConst (TSynced U M)) => Send_ U && Mutex M
  | _ => false
  end.

Definition Send (T : cpp_type) : bool :=
  send_tag_v (remove_cvref_t T) && movable (remove_cvref_t T).

Definition Sync (T : cpp_type) : bool :=
  send_tag_v (TLRef (TConst (remove_cvref_t T))).

End Capability.

(** ** Thread-bound guard (agano.hpp, lines 94-222) *)

Module Bound.

(** A thread of execution, and [std::thread::id]: the default-constructed
    id stands for no thread, every running thread has an id of its own. *)
Definition thread := nat.

Inductive thread_id :=
| not_a_thread
| id_of (t : thread).

#[global] Instance thread_id_eq_dec : EqDecision thread_id.
Proof. solve_decision. Defined.

(** What the move constructor of a payload type leaves in its source.
    The destination receives the source's value. *)
Class Movable (T : Type) := moved_from : T → T.

(** Moving an [int] copies it. *)
#[global] Instance int_movable : Movable Z := λ z, z.

Record ThreadBound (T : Type) := mkThreadBound {
  object : T;
  owner_id : thread_id
}.
Arguments mkThreadBound {T} _ _.
Arguments object {T} _.
Arguments owner_id {T} _.

(** [ThreadBound<T>::unbound{}] (line 212). *)
Definition unbound : thread_id := not_a_thread.

(** Guards live in a store, at addresses; a [T&] or [T*] obtained from a
    guard designates the payload of the guard at that address. *)
Definition addr := nat.

(** How a call ends: it returns, it reaches [EH_PANIC], or it uses an
    object that does not exist. *)
Inductive outcome (A : Type) :=
| Done (a : A)
| Panic (msg : string)
| Undefined.
Arguments Done {A} _.
Arguments Panic {A} _.
Arguments Undefined {A}.

Section Methods.
Context {T : Type} `{!Movable T}.

(** [std::hash<std::thread::id>], used for the panic message only. *)
Variable hasher : thread_id → N.

(** Code run by a thread over the store of guards. *)
Definition M (A : Type) : Type :=
  thread → gmap addr (ThreadBound T) → outcome (A * gmap addr (ThreadBound T)).

#[global] Instance M_ret : MRet M := λ A a _ σ, Done (a, σ).

#[global] Instance M_bind : MBind M := λ A B k m t σ,
  match m t σ with
  | Done (a, σ') => k a t σ'
  | Panic msg => Panic msg
  | Undefined => Undefined
  end.

(** [std::this_thread::get_id()] *)
Definition get_id : M thread_id := λ t σ, Done (id_of t, σ).

Definition load (a : addr) : M (ThreadBound T) := λ _ σ,
  match σ !! a with
  | Some G => Done (G, σ)
  | None => Undefined
  end.

Definition store (a : addr) (G : ThreadBound T) : M unit := λ _ σ,
  match σ !! a with
  | Some _ => Done (tt, <[a := G]> σ)
  | None => Undefined
  end.

(** Storage for a guard under construction. *)
Definition alloc (G : ThreadBound T) : M addr := λ _ σ,
  let a := fresh (dom σ) in Done (a, <[a := G]> σ).

(** Modelled from the spec: [EH_PANIC] comes from [fuwa/assert.hpp],
    which is not part of the sources.  It is the fatal-error report:
    it is given the message and the operation goes no further. *)
Definition EH_PANIC {A} (msg : string) : M A := λ _ _, Panic msg.

(** Another thread runs [m] (the body of a [std::thread] that is
    joined at once). *)
Definition on_thread {A} (t : thread) (m : M A) : M A := λ _ σ, m t σ.

(** Line 114. *)
Definition ctor (obj : T) : M addr :=
  id ← get_id;
  alloc (mkThreadBound obj id).

(** Line 119: [owner_id] is default-constructed. *)
Definition ctor_defer (obj : T) : M addr :=
  alloc (mkThreadBound obj not_a_thread).

(** Line 181. *)
Definition is_unbound (this : addr) : M bool :=
  G ← load this;
  mret (bool_decide (owner_id G = unbound)).

(** Line 185. *)
Definition get_owner_id (this : addr) : M thread_id :=
  G ← load this;
  mret (owner_id G).

(** Line 202.  The member is called while [this] is being constructed
    and reads nothing of it. *)
Definition get_owner_id_ (rhs : addr) : M thread_id :=
  b ← is_unbound rhs;
  if b : bool then mret unbound else get_id.

(** Line 123: copy constructor. *)
Definition copy_ctor (rhs : addr) : M addr :=
  R ← load rhs;
  id ← get_owner_id_ rhs;
  alloc (mkThreadBound (object R) id).

(** Line 139: move constructor.  [object] is moved out of [rhs], then
    [owner_id] is computed, then the body unbinds [rhs]. *)
Definition move_ctor (rhs : addr) : M addr :=
  R ← load rhs;
  store rhs (mkThreadBound (moved_from (object R)) (owner_id R));;
  id ← get_owner_id_ rhs;
  this ← alloc (mkThreadBound (object R) id);
  R' ← load rhs;
  store rhs (mkThreadBound (object R') unbound);;
  mret this.

Definition violation_message (owner caller : N) : string :=
  "Thread-safety violation occurred! The object is bound to one thread (id: "
  +:+ pretty owner +:+ "), but used in other (id: " +:+ pretty caller +:+ ")".

(** Line 190. *)
Definition validate_ (this : addr) : M unit :=
  b ← is_unbound this;
  if b : bool then
    id ← get_id;
    G ← load this;
    store this (mkThreadBound (object G) id)
  else
    id ← get_id;
    G ← load this;
    if decide (id ≠ owner_id G) then
      EH_PANIC (violation_message (hasher (owner_id G)) (hasher id))
    else mret tt.

(** Lines 161-179: the four accessors.  Each returns the payload of
    [this], as a reference or a pointer. *)
Definition operator_star (this : addr) : M addr :=
  validate_ this;; mret this.

Definition operator_arrow (this : addr) : M addr :=
  validate_ this;; mret this.

Definition operator_star_const (this : addr) : M addr :=
  validate_ this;; mret this.

Definition operator_arrow_const (this : addr) : M addr :=
  validate_ this;; mret this.

(** Reading and writing through a reference to a payload. *)
Definition read (r : addr) : M T :=
  G ← load r;
  mret (object G).

Definition write (r : addr) (v : T) : M unit :=
  G ← load r;
  store r (mkThreadBound v (owner_id G)).

(** Lines 214-222. *)
Definition make_thread_bound (obj : T) : M addr := ctor obj.

Definition make_thread_bound_defer (obj : T) : M addr := ctor_defer obj.

End Methods.

End Bound.

(** ** Lock owner and scoped guard (agano.hpp, lines 30-92) *)

Module Lock.
Import Bound.

(** The lockable primitive [M] of [Synced<T, M>] and [Locked<T, M>],
    with the acquire semantics the library relies on: [lock()] returns
    only on a mutex nobody holds, and the mutex is held from then until
    [unlock()].  [m_lock] is [None] where the caller has to wait. *)
Class Lockable (M : Type) := {
  m_new : M;
  m_lock : thread → M → option M;
  m_unlock : thread → M → M;
  m_held : M → bool;
  m_new_free : m_held m_new = false;
  m_lock_held : ∀ t m m', m_lock t m = Some m' → m_held m = false ∧ m_held m' = true;
  m_lock_grant : ∀ t m, m_held m = false → is_Some (m_lock t m);
  m_unlock_free : ∀ t m, m_held (m_unlock t m) = false
}.

(** [std::mutex], the default [M]: free, or held by a thread.  While it
    is held no [lock()] returns, that of the holder included. *)
Definition std_mutex := option thread.

Definition std_mutex_lock (t : thread) (m : std_mutex) : option std_mutex :=
  match m with
  | None => Some (Some t)
  | Some _ => None
  end.

#[global, refine] Instance std_mutex_lockable : Lockable std_mutex := {|
  m_new := None;
  m_lock := std_mutex_lock;
  m_unlock := λ _ _, None;
  m_held := λ m, if m is Some _ then true else false
|}.
Proof.
  - reflexivity.
  - by intros t [h|] m' [= <-].
  - intros t [h|] Hh; [done|by eexists].
  - reflexivity.
Defined.

Record Synced (T M : Type) := mkSynced {
  mutex_ : M;
  owned_ : T
}.
Arguments mkSynced {T M} _ _.
Arguments mutex_ {T M} _.
Arguments owned_ {T M} _.

(** [ref_] is a reference to the payload of the owner at that address;
    [lock_] is a [std::lock_guard<M>], which keeps a reference to the
    mutex of the owner at that address. *)
Record Locked := mkLocked {
  ref_ : addr;
  lock_ : addr
}.

(** The lock owners and the guards that are alive, each guard with the
    thread in whose scope it lives.  Neither kind of object can be copied
    or moved, so an address names an object for its whole life. *)
Record world (T M : Type) := mkWorld {
  owners : gmap addr (Synced T M);
  guards : gmap addr (thread * Locked)
}.
Arguments mkWorld {T M} _ _.
Arguments owners {T M} _.
Arguments guards {T M} _.

Section Operations.
Context {T M : Type} `{!Lockable M}.

(** Line 75: [Synced(T&& rhs)]; the mutex is default-constructed. *)
Definition Synced_ctor (rhs : T) (w : world T M) : addr * world T M :=
  let o := fresh (dom (owners w)) in
  (o, mkWorld (<[o := mkSynced m_new rhs]> (owners w)) (guards w)).

(** Line 37: [Locked(T& ref, M& mutex)].  The [lock_guard] member
    calls [mutex.lock()]; the constructor returns once that returns. *)
Definition Locked_ctor (ref mutex : addr) (t : thread) (w : world T M)
  : option (addr * world T M) :=
  s ← owners w !! mutex;
  m' ← m_lock t (mutex_ s);
  let this := fresh (dom (guards w)) in
  Some (this,
        mkWorld (<[mutex := mkSynced m' (owned_ s)]> (owners w))
                (<[this := (t, mkLocked ref mutex)]> (guards w))).

(** Line 88: [Synced::lock()] is [Locked{ owned_, mutex_ }]. *)
Definition Synced_lock (this : addr) (t : thread) (w : world T M)
  : option (addr * world T M) :=
  Locked_ctor this this t w.

(** Line 48: [~Locked()]; the [lock_guard] member calls
    [mutex.unlock()]. *)
Definition Locked_dtor (this : addr) (w : world T M) : option (world T M) :=
  '(t, g) ← guards w !! this;
  s ← owners w !! lock_ g;
  Some (mkWorld (<[lock_ g := mkSynced (m_unlock t (mutex_ s)) (owned_ s)]> (owners w))
                (delete this (guards w))).

(** Lines 50-64: [operator*] returns [ref_], [operator->] its address. *)
Definition Locked_operator_star (this : addr) (w : world T M) : option addr :=
  '(_, g) ← guards w !! this;
  Some (ref_ g).

Definition Locked_operator_arrow (this : addr) (w : world T M) : option addr :=
  '(_, g) ← guards w !! this;
  Some (ref_ g).

(** Reading and writing through a reference to an owner's payload. *)
Definition read_ref (r : addr) (w : world T M) : option T :=
  owned_ <$> owners w !! r.

Definition write_ref (r : addr) (v : T) (w : world T M) : option (world T M) :=
  s ← owners w !! r;
  Some (mkWorld (<[r := mkSynced (mutex_ s) v]> (owners w)) (guards w)).

(** What threads do, one call at a time.  [Wrote t g o v]: thread [t]
    writes [v] to the payload of owner [o], through a reference that
    [operator*] or [operator->] of guard [g] returned. *)
Inductive event :=
| Created (o : addr)
| Acquired (t : thread) (g o : addr)
| Wrote (t : thread) (g o : addr) (v : T)
| Released (t : thread) (g o : addr).

(** The reference an accessor returns is a plain [T&] (lines 58-64): a
    thread can keep it and write through it when the guard is gone, so
    [step_write] asks nothing of the guard. *)
Inductive step : world T M → event → world T M → Prop :=
| step_create rhs w o w' :
    Synced_ctor rhs w = (o, w') →
    step w (Created o) w'
| step_lock t o w g w' :
    Synced_lock o t w = Some (g, w') →
    step w (Acquired t g o) w'
| step_write t g r v w w' :
    write_ref r v w = Some w' →
    step w (Wrote t g r v) w'
| step_unlock t g l w w' :
    guards w !! g = Some (t, l) →
    Locked_dtor g w = Some w' →
    step w (Released t g (lock_ l)) w'.

Inductive exec : world T M → list event → world T M → Prop :=
| exec_nil w : exec w [] w
| exec_cons w e w' es w'' : step w e w' → exec w' es w'' → exec w (e :: es) w''.

(** Before any thread has asked for a guard. *)
Definition initial (w : world T M) : Prop :=
  guards w = ∅ ∧ ∀ o s, owners w !! o = Some s → m_held (mutex_ s) = false.

(** The guards over owner [o] that are alive. *)
Definition live_guards (o : addr) (w : world T M) : gmap addr (thread * Locked) :=
  filter (λ kg, lock_ kg.2.2 = o) (guards w).

(** The invariant of the step relation: a live guard refers to the
    payload and the mutex of one owner, that owner exists and its mutex
    is held; and two live guards are over different owners. *)
Definition consistent (w : world T M) : Prop :=
  (∀ g t l, guards w !! g = Some (t, l) →
     ref_ l = lock_ l ∧
     ∃ s, owners w !! lock_ l = Some s ∧ m_held (mutex_ s) = true) ∧
  (∀ g1 g2 t1 t2 l1 l2,
     guards w !! g1 = Some (t1, l1) → guards w !! g2 = Some (t2, l2) →
     lock_ l1 = lock_ l2 → g1 = g2).

End Operations.

End Lock.

(** ** The demonstration program (example.cpp)

    Each test returns the values of its [assert]s, in order.  The thread
    a test starts is joined before the test goes on, so its body runs as
    one block on thread [t]. *)

Module Example.
Import Bound.

Definition hasher (id : thread_id) : N :=
  match id with
  | not_a_thread => 0
  | id_of t => N.succ (N.of_nat t)
  end.

(** Lines 10-28. *)
Definition test1 (t : thread) : @M Z (list bool) :=
  counter1 ← make_thread_bound 42%Z;
  on_thread t (
    counter2 ← copy_ctor counter1;
    o1 ← get_owner_id counter1;
    o2 ← get_owner_id counter2;
    let a1 := bool_decide (o1 ≠ o2) in
    counter3 ← move_ctor counter1;
    a2 ← is_unbound counter1;
    o2 ← get_owner_id counter2;
    o3 ← get_owner_id counter3;
    let a3 := bool_decide (o2 = o3) in
    mret [a1; a2; a3]).

(** Lines 30-53.  The guard is moved into the closure, and the closure
    into the thread object, both on the starting thread. *)
Definition test2 (t : thread) : @M Z (list bool) :=
  counter ← make_thread_bound_defer 42%Z;
  closure ← move_ctor counter;
  counter1 ← move_ctor closure;
  on_thread t (
    counter2 ← copy_ctor counter1;
    o1 ← get_owner_id counter1;
    o2 ← get_owner_id counter2;
    let a1 := bool_decide (o1 = o2) in
    a2 ← is_unbound counter1;
    r ← operator_star hasher counter1;
    v ← read r;
    write r (v + 50)%Z;;
    o1 ← get_owner_id counter1;
    me ← get_id;
    let a3 := bool_decide (o1 = me) in
    a4 ← is_unbound counter2;
    r ← operator_star hasher counter2;
    v ← read r;
    let a5 := bool_decide (v = 42%Z) in
    u ← is_unbound counter2;
    let a6 := negb u in
    counter3 ← move_ctor counter1;
    a7 ← is_unbound counter1;
    o2 ← get_owner_id counter2;
    o3 ← get_owner_id counter3;
    let a8 := bool_decide (o2 = o3) in
    mret [a1; a2; a3; a4; a5; a6; a7; a8]).

(** Lines 55-67, up to the first dereference on the started thread. *)
Definition intentional_error (t : thread) : @M Z Z :=
  counter ← make_thread_bound 0%Z;
  r ← operator_star hasher counter;
  v ← read r;
  write r (v + 10)%Z;;
  on_thread t (
    r ← operator_star hasher counter;
    read r).

(** A guard over 42 bound to thread 0, alone in the store. *)
Definition bound_to_0 : gmap addr (ThreadBound Z) :=
  {[ 0 := mkThreadBound 42%Z (id_of 0) ]}.

(** A guard over 42 that is not bound yet. *)
Definition deferred : gmap addr (ThreadBound Z) :=
  {[ 0 := mkThreadBound 42%Z not_a_thread ]}.

(** One [Synced<int>] over 42, its mutex free, and no guard. *)
Definition one_owner : Lock.world Z Lock.std_mutex :=
  (Lock.Synced_ctor 42%Z (Lock.mkWorld ∅ ∅)).2.

(** Thread 1 takes a guard, writes 7 through it and lets it go, then
    thread 2 takes a guard. *)
Definition hand_over : list (Lock.event (T:=Z)) :=
  [Lock.Acquired 1 0 0; Lock.Wrote 1 0 0 7%Z; Lock.Released 1 0 0;
   Lock.Acquired 2 0 0].

(** [one_owner] once thread 1 has been given a guard. *)
Definition locked_by_1 : Lock.world Z Lock.std_mutex :=
  Lock.mkWorld {[ 0 := Lock.mkSynced (Some 1) 42%Z ]}
               {[ 0 := (1, Lock.mkLocked 0 0) ]}.

Definition handed_over : Lock.world Z Lock.std_mutex :=
  Lock.mkWorld {[ 0 := Lock.mkSynced (Some 2) 7%Z ]}
               {[ 0 := (2, Lock.mkLocked 0 0) ]}.

End Example.

(** * Properties of the capability classifier *)

Section CapabilityFacts.
Import Capability.

Lemma send_tag_v_Synced U M :
  send_tag_v (TSynced U M) = Send U && Mutex M.
Proof. reflexivity. Qed.

Lemma send_tag_v_const_ref_Synced U M :
  send_tag_v (TLRef (TConst (TSynced U M))) = Send U && Mutex M.
Proof. reflexivity. Qed.

Lemma Synced_not_movable U M : movable (TSynced U M) = false.
Proof. reflexivity. Qed.

(** With the registrations of the header and no others, the only types
    whose const-reference view is tagged are the lock owners. *)
Lemma send_tag_v_const_ref T :
  send_tag_v (TLRef (TConst T)) = true ↔
  ∃ U M, T = TSynced U M ∧ Send U = true ∧ Mutex M = true.
Proof.
  split.
  - destruct T as [| |d|U M|U M|U|U|U|U]; try discriminate.
    rewrite send_tag_v_const_ref_Synced, andb_true_iff.
    intros [HU HM]. by exists U, M.
  - intros (U & M & -> & HU & HM).
    by rewrite send_tag_v_const_ref_Synced, HU, HM.
Qed.

(** C4: the tag of [Synced<int, std::mutex>] is registered, as for every
    lock owner over a [Send] payload and a [Mutex], and yet no lock
    owner satisfies [Send]: the concept also asks for [std::movable], and
    [Synced] deletes its move constructor and move assignment. *)
Theorem Synced_tagged_but_not_Send :
  Send TInt = true ∧ Mutex TStdMutex = true ∧
  send_tag_v (TSynced TInt TStdMutex) = true ∧
  Send (TSynced TInt TStdMutex) = false ∧
  (∀ U M, send_tag_v (TSynced U M) = Send U && Mutex M) ∧
  (∀ U M, Send (TSynced U M) = false).
Proof.
  split_and!; [reflexivity..|apply send_tag_v_Synced|].
  intros U M. unfold Send. cbn [remove_cvref_t remove_reference_t remove_cv_t].
  by rewrite Synced_not_movable, andb_false_r.
Qed.

(** C5, as stated, fails at [const int&]: it satisfies [Send], and is
    neither movable nor registered itself. *)
Lemma Send_literal_counterexample :
  ¬ (∀ T, Send T = true ↔ movable T = true ∧ send_tag_v T = true).
Proof.
  intros H. destruct (H (TLRef (TConst TInt))) as [Hsend _].
  destruct (Hsend eq_refl) as [Hmov _]. discriminate Hmov.
Qed.

(** C5, amended: [Send T] holds exactly when [T] without its reference
    and top-level const is movable and carries the tag; for a type that
    is neither a reference nor const this is [T] itself; and a type whose
    stripped form has no registration is not [Send]. *)
Theorem Send_iff_movable_and_tagged T :
  (Send T = true ↔
     movable (remove_cvref_t T) = true ∧ send_tag_v (remove_cvref_t T) = true) ∧
  (remove_cvref_t T = T →
     (Send T = true ↔ movable T = true ∧ send_tag_v T = true)) ∧
  (send_tag_v (remove_cvref_t T) = false → Send T = false).
Proof.
  unfold Send. split_and!.
  - rewrite andb_true_iff. tauto.
  - intros ->. rewrite andb_true_iff. tauto.
  - by intros ->.
Qed.

Lemma Send_iff_movable_and_tagged_witness :
  (remove_cvref_t TInt = TInt ∧ Send TInt = true) ∧
  (send_tag_v (remove_cvref_t (TRRef TStdMutex)) = false ∧
   Send (TRRef TStdMutex) = false).
Proof.
  split.
  - split; [reflexivity|].
    apply (proj1 (proj2 (Send_iff_movable_and_tagged TInt))); [reflexivity|].
    split; reflexivity.
  - split; [reflexivity|].
    apply (proj2 (proj2 (Send_iff_movable_and_tagged (TRRef TStdMutex)))).
    reflexivity.
Defined.

(** C6, as stated, fails at [int]: [const int&] satisfies [Send], and
    [int] does not satisfy [Sync]. *)
Lemma Sync_literal_counterexample :
  ¬ (∀ T, Sync T = true ↔ Send (TLRef (TConst T)) = true).
Proof.
  intros H. destruct (H TInt) as [_ Hsync].
  discriminate (Hsync eq_refl).
Qed.

(** C6, amended: [Sync T] holds exactly when the tag is registered for
    the const reference to [T] taken without its own reference and
    const: the raw tag of that reference type, not [Send] of it. *)
Theorem Sync_iff_const_ref_tagged T :
  Sync T = true ↔ send_tag_v (TLRef (TConst (remove_cvref_t T))) = true.
Proof. unfold Sync. split; intros Htag; exact Htag. Qed.

Lemma Sync_iff_const_ref_tagged_witness :
  send_tag_v (TLRef (TConst (remove_cvref_t (TLRef (TSynced TInt TStdMutex))))) = true ∧
  Sync (TLRef (TSynced TInt TStdMutex)) = true.
Proof.
  split; [reflexivity|].
  apply (proj2 (Sync_iff_const_ref_tagged (TLRef (TSynced TInt TStdMutex)))).
  reflexivity.
Defined.

End CapabilityFacts.

(** * Properties of the thread-bound guard *)

Section ThreadBoundFacts.
Import Bound.
Context {T : Type} `{!Movable T}.
Variable hasher : thread_id → N.
Implicit Types (t : thread) (σ : gmap addr (ThreadBound T)) (g : addr)
  (G : ThreadBound T).

(** The owner [get_owner_id_] computes for a guard built from [G] by
    thread [t]. *)
Abbreviation owner_from G t :=
  (if decide (owner_id G = unbound) then unbound else id_of t).

Ltac run := unfold mbind, M_bind, mret, M_ret; simpl.

Lemma load_eq t σ g G : σ !! g = Some G → load g t σ = Done (G, σ).
Proof. unfold load. by intros ->. Qed.

Lemma store_eq t σ g G G' :
  σ !! g = Some G → store g G' t σ = Done (tt, <[g := G']> σ).
Proof. unfold store. by intros ->. Qed.

Lemma alloc_fresh σ : σ !! fresh (dom σ) = None.
Proof. apply not_elem_of_dom, is_fresh. Qed.

Lemma is_unbound_eq t σ g G :
  σ !! g = Some G →
  is_unbound g t σ = Done (bool_decide (owner_id G = unbound), σ).
Proof. intros Hg. unfold is_unbound. run. by rewrite (load_eq _ _ _ G). Qed.

Lemma get_owner_id_eq t σ g G :
  σ !! g = Some G → get_owner_id g t σ = Done (owner_id G, σ).
Proof. intros Hg. unfold get_owner_id. run. by rewrite (load_eq _ _ _ G). Qed.

Lemma get_owner_id__eq t σ g G :
  σ !! g = Some G → get_owner_id_ g t σ = Done (owner_from G t, σ).
Proof.
  intros Hg. unfold get_owner_id_. run.
  rewrite (is_unbound_eq _ _ _ G) by done.
  case_bool_decide; by rewrite decide_bool_decide, ?bool_decide_eq_true_2,
    ?bool_decide_eq_false_2 by done.
Qed.

Lemma copy_ctor_eq t σ g G :
  σ !! g = Some G →
  copy_ctor g t σ =
    Done (fresh (dom σ),
          <[fresh (dom σ) := mkThreadBound (object G) (owner_from G t)]> σ).
Proof.
  intros Hg. unfold copy_ctor. run.
  rewrite (load_eq _ _ _ G) by done.
  by rewrite (get_owner_id__eq _ _ _ G).
Qed.

Lemma move_ctor_eq t σ g G :
  σ !! g = Some G →
  move_ctor g t σ =
    Done (fresh (dom σ),
          <[g := mkThreadBound (moved_from (object G)) unbound]>
            (<[fresh (dom σ) := mkThreadBound (object G) (owner_from G t)]> σ)).
Proof.
  intros Hg. unfold move_ctor. run.
  assert (fresh (dom σ) ≠ g) as Hne.
  { intros <-. by rewrite alloc_fresh in Hg. }
  rewrite (load_eq _ _ _ G) by done.
  rewrite (store_eq _ _ _ G) by done.
  rewrite (get_owner_id__eq _ _ _ (mkThreadBound (moved_from (object G)) (owner_id G)))
    by apply lookup_insert_eq.
  unfold alloc. rewrite dom_insert_lookup_L by done.
  set (n := fresh (dom σ)) in *.
  erewrite load_eq;
    [|by rewrite lookup_insert_ne, lookup_insert_eq].
  erewrite store_eq;
    [|by rewrite lookup_insert_ne, lookup_insert_eq].
  do 2 f_equal. simpl.
  rewrite (insert_insert_ne (M:=gmap addr) _ n g) by done.
  by rewrite insert_insert_eq.
Qed.

Lemma validate__unbound t σ g G :
  σ !! g = Some G → owner_id G = unbound →
  validate_ hasher g t σ = Done (tt, <[g := mkThreadBound (object G) (id_of t)]> σ).
Proof.
  intros Hg Hu. unfold validate_. run.
  rewrite (is_unbound_eq _ _ _ G), bool_decide_eq_true_2 by done.
  unfold get_id. rewrite (load_eq _ _ _ G) by done.
  by rewrite (store_eq _ _ _ G).
Qed.

Lemma validate__owner t σ g G :
  σ !! g = Some G → owner_id G = id_of t →
  validate_ hasher g t σ = Done (tt, σ).
Proof.
  intros Hg Ho. unfold validate_. run.
  rewrite (is_unbound_eq _ _ _ G), bool_decide_eq_false_2 by (done || by rewrite Ho).
  unfold get_id. rewrite (load_eq _ _ _ G) by done.
  rewrite decide_False; [done|]. intros Hne. by apply Hne.
Qed.

Lemma validate__other t σ g G :
  σ !! g = Some G → owner_id G ≠ unbound → owner_id G ≠ id_of t →
  validate_ hasher g t σ =
    Panic (violation_message (hasher (owner_id G)) (hasher (id_of t))).
Proof.
  intros Hg Hu Ho. unfold validate_. run.
  rewrite (is_unbound_eq _ _ _ G), bool_decide_eq_false_2 by done.
  unfold get_id. rewrite (load_eq _ _ _ G) by done.
  by rewrite decide_True.
Qed.

Lemma read_eq t σ g G : σ !! g = Some G → read g t σ = Done (object G, σ).
Proof. intros Hg. unfold read. run. by rewrite (load_eq _ _ _ G). Qed.

Lemma accessor_eq (op : addr → @M T addr) :
  op ∈ [operator_star hasher; operator_arrow hasher;
        operator_star_const hasher; operator_arrow_const hasher] →
  op = λ this, validate_ hasher this;; mret this.
Proof. rewrite !elem_of_cons, elem_of_nil. by intros [->|[->|[->|[->|[]]]]]. Qed.

(** C1, amended: the move constructor gives the new guard the payload of
    [G]; the new guard is unbound if [G] was, and otherwise bound to the
    thread that performs the move; afterwards [G] reports
    [is_unbound() == true], to every thread. *)
Theorem move_ctor_binds_to_mover t σ g G :
  σ !! g = Some G →
  ∃ n σ',
    move_ctor g t σ = Done (n, σ') ∧
    σ !! n = None ∧
    (∃ G', σ' !! n = Some G' ∧ object G' = object G ∧
           (owner_id G = unbound → owner_id G' = unbound) ∧
           (owner_id G ≠ unbound → owner_id G' = id_of t)) ∧
    (∀ t', is_unbound g t' σ' = Done (true, σ')).
Proof.
  intros Hg. eexists _, _. split; [by apply move_ctor_eq|].
  assert (fresh (dom σ) ≠ g) as Hne.
  { intros <-. by rewrite alloc_fresh in Hg. }
  split_and!.
  - apply alloc_fresh.
  - eexists. split; [by rewrite lookup_insert_ne, lookup_insert_eq|].
    simpl. by case_decide.
  - intros t'. by erewrite is_unbound_eq by apply lookup_insert_eq.
Qed.

(** C2: every accessor checks ownership first.  On an unbound guard it
    binds the guard to the caller and gives the payload; on a guard
    bound to the caller it gives the payload and changes nothing; on a
    guard bound to another thread it panics, with a message that holds
    the hash of the recorded owner and the hash of the caller, and gives
    no access. *)
Theorem access_checks_ownership t σ g G (op : addr → @M T addr) :
  op ∈ [operator_star hasher; operator_arrow hasher;
        operator_star_const hasher; operator_arrow_const hasher] →
  σ !! g = Some G →
  (owner_id G = unbound →
     op g t σ = Done (g, <[g := mkThreadBound (object G) (id_of t)]> σ) ∧
     (r ← op g; read r) t σ =
       Done (object G, <[g := mkThreadBound (object G) (id_of t)]> σ)) ∧
  (owner_id G = id_of t →
     op g t σ = Done (g, σ) ∧
     (r ← op g; read r) t σ = Done (object G, σ)) ∧
  (owner_id G ≠ unbound → owner_id G ≠ id_of t →
     let msg := violation_message (hasher (owner_id G)) (hasher (id_of t)) in
     op g t σ = Panic msg ∧
     (r ← op g; read r) t σ = Panic msg ∧
     ∃ pre mid post,
       msg = pre +:+ pretty (hasher (owner_id G)) +:+ mid
                 +:+ pretty (hasher (id_of t)) +:+ post).
Proof.
  intros Hop Hg. rewrite (accessor_eq _ Hop). split_and!.
  - intros Hu. run. rewrite (validate__unbound _ _ _ G) by done.
    split; [done|]. by erewrite read_eq by apply lookup_insert_eq.
  - intros Ho. run. rewrite (validate__owner _ _ _ G) by done.
    split; [done|]. by erewrite read_eq.
  - intros Hu Ho. run.
    rewrite (validate__other _ _ _ G) by done.
    split_and!; [done..|]. by eexists _, _, _.
Qed.

(** C3: a copy made by thread [t] has a payload equal to that of [G];
    it is unbound if [G] is, and otherwise bound to [t]. *)
Theorem copy_ctor_binds_to_copier t σ g G :
  σ !! g = Some G →
  ∃ n σ' G',
    copy_ctor g t σ = Done (n, σ') ∧
    σ !! n = None ∧
    σ' !! n = Some G' ∧
    object G' = object G ∧
    (owner_id G = unbound → owner_id G' = unbound) ∧
    (owner_id G ≠ unbound → owner_id G' = id_of t).
Proof.
  intros Hg. eexists _, _, _. split; [by apply copy_ctor_eq|].
  split_and!.
  - apply alloc_fresh.
  - apply lookup_insert_eq.
  - done.
  - simpl. by case_decide.
  - simpl. by case_decide.
Qed.

(** C8: [is_unbound()] and [get_owner_id()], called by any thread,
    return and leave the store as it was: no owner and no payload
    changes. *)
Theorem observers_are_pure t σ g G :
  σ !! g = Some G →
  is_unbound g t σ = Done (bool_decide (owner_id G = unbound), σ) ∧
  get_owner_id g t σ = Done (owner_id G, σ).
Proof.
  intros Hg. split; [by apply is_unbound_eq|by apply get_owner_id_eq].
Qed.

(** C9: copy construction returns, and leaves its source as it was, owner
    and payload, as every other guard; only the new guard is added. *)
Theorem copy_ctor_preserves_source t σ g G :
  σ !! g = Some G →
  ∃ n σ',
    copy_ctor g t σ = Done (n, σ') ∧
    n ≠ g ∧
    σ' !! g = Some G ∧
    (∀ a, a ≠ n → σ' !! a = σ !! a).
Proof.
  intros Hg. eexists _, _. split; [by apply copy_ctor_eq|].
  assert (fresh (dom σ) ≠ g) as Hne.
  { intros <-. by rewrite alloc_fresh in Hg. }
  split_and!; [done|by rewrite lookup_insert_ne|].
  intros a Ha. by rewrite lookup_insert_ne.
Qed.

End ThreadBoundFacts.

(** ** The laws at concrete guards, and the tests of example.cpp *)

Section ThreadBoundExamples.
Import Bound Example.

(** C1, as stated, fails when thread 1 moves a guard bound to thread 0:
    the new guard is bound to thread 1. *)
Lemma move_keeps_owner_counterexample :
  ¬ (∀ (t : thread) (σ : gmap addr (ThreadBound Z)) (g : addr) (G : ThreadBound Z),
       σ !! g = Some G →
       ∃ n σ', move_ctor g t σ = Done (n, σ') ∧
               owner_id <$> σ' !! n = Some (owner_id G)).
Proof.
  intros H.
  destruct (H 1 bound_to_0 0 (mkThreadBound 42%Z (id_of 0)) eq_refl)
    as (n & σ' & Hrun & Hown).
  vm_compute in Hrun. injection Hrun as <- <-.
  vm_compute in Hown. discriminate Hown.
Qed.

Lemma move_ctor_binds_to_mover_witness :
  bound_to_0 !! 0 = Some (mkThreadBound 42%Z (id_of 0)) ∧
  ∃ n σ',
    move_ctor 0 1 bound_to_0 = Done (n, σ') ∧
    bound_to_0 !! n = None ∧
    (∃ G', σ' !! n = Some G' ∧ object G' = 42%Z ∧
           (id_of 0 = unbound → owner_id G' = unbound) ∧
           (id_of 0 ≠ unbound → owner_id G' = id_of 1)) ∧
    (∀ t', is_unbound 0 t' σ' = Done (true, σ')).
Proof.
  split; [reflexivity|].
  apply (move_ctor_binds_to_mover 1 bound_to_0 0 (mkThreadBound 42%Z (id_of 0))).
  reflexivity.
Defined.

Lemma access_checks_ownership_witness :
  (operator_star hasher 0 3 deferred =
     Done (0, <[0 := mkThreadBound 42%Z (id_of 3)]> deferred)) ∧
  (operator_arrow hasher 0 0 bound_to_0 = Done (0, bound_to_0)) ∧
  (operator_star_const hasher 0 1 bound_to_0 =
     Panic (violation_message (hasher (id_of 0)) (hasher (id_of 1)))).
Proof.
  split_and!.
  - apply (access_checks_ownership hasher 3 deferred 0
             (mkThreadBound 42%Z not_a_thread) (operator_star hasher));
      [repeat constructor|reflexivity|reflexivity].
  - apply (access_checks_ownership hasher 0 bound_to_0 0
             (mkThreadBound 42%Z (id_of 0)) (operator_arrow hasher));
      [repeat constructor|reflexivity|reflexivity].
  - apply (access_checks_ownership hasher 1 bound_to_0 0
             (mkThreadBound 42%Z (id_of 0)) (operator_star_const hasher));
      [repeat constructor|reflexivity|discriminate|discriminate].
Defined.

Lemma copy_ctor_binds_to_copier_witness :
  bound_to_0 !! 0 = Some (mkThreadBound 42%Z (id_of 0)) ∧
  ∃ n σ' G',
    copy_ctor 0 1 bound_to_0 = Done (n, σ') ∧
    bound_to_0 !! n = None ∧
    σ' !! n = Some G' ∧
    object G' = 42%Z ∧
    (id_of 0 = unbound → owner_id G' = unbound) ∧
    (id_of 0 ≠ unbound → owner_id G' = id_of 1).
Proof.
  split; [reflexivity|].
  apply (copy_ctor_binds_to_copier 1 bound_to_0 0 (mkThreadBound 42%Z (id_of 0))).
  reflexivity.
Defined.

Lemma observers_are_pure_witness :
  bound_to_0 !! 0 = Some (mkThreadBound 42%Z (id_of 0)) ∧
  is_unbound 0 1 bound_to_0 = Done (false, bound_to_0) ∧
  get_owner_id 0 1 bound_to_0 = Done (id_of 0, bound_to_0).
Proof.
  split; [reflexivity|].
  apply (observers_are_pure 1 bound_to_0 0 (mkThreadBound 42%Z (id_of 0))).
  reflexivity.
Defined.

Lemma copy_ctor_preserves_source_witness :
  bound_to_0 !! 0 = Some (mkThreadBound 42%Z (id_of 0)) ∧
  ∃ n σ',
    copy_ctor 0 1 bound_to_0 = Done (n, σ') ∧
    n ≠ 0 ∧
    σ' !! 0 = Some (mkThreadBound 42%Z (id_of 0)) ∧
    (∀ a, a ≠ n → σ' !! a = bound_to_0 !! a).
Proof.
  split; [reflexivity|].
  apply (copy_ctor_preserves_source 1 bound_to_0 0 (mkThreadBound 42%Z (id_of 0))).
  reflexivity.
Defined.

(** The assertions of [test1] and [test2] hold, on a main thread 0 that
    starts a thread 1. *)
Example test1_asserts_hold :
  ∃ σ, test1 1 0 ∅ = Done ([true; true; true], σ).
Proof. eexists. vm_compute. reflexivity. Qed.

Example test2_asserts_hold :
  ∃ σ, test2 1 0 ∅ = Done ([true; true; true; true; true; true; true; true], σ).
Proof. eexists. vm_compute. reflexivity. Qed.

Example intentional_error_panics :
  intentional_error 1 0 ∅ =
    Panic "Thread-safety violation occurred! The object is bound to one thread (id: 1), but used in other (id: 2)".
Proof. vm_compute. reflexivity. Qed.

End ThreadBoundExamples.

(** * Properties of the lock owner and its guards *)

Section LockFacts.
Import Bound Lock.
Context {T M : Type} `{!Lockable M}.
Implicit Types (w : world T M) (o g r : addr) (t : thread) (l : Locked)
  (e : event (T:=T)) (es : list (event (T:=T))).

Lemma Locked_ctor_Some ref mutex t w g w' :
  Locked_ctor ref mutex t w = Some (g, w') →
  ∃ s m', owners w !! mutex = Some s ∧ m_lock t (mutex_ s) = Some m' ∧
          g = fresh (dom (guards w)) ∧
          w' = mkWorld (<[mutex := mkSynced m' (owned_ s)]> (owners w))
                       (<[g := (t, mkLocked ref mutex)]> (guards w)).
Proof.
  unfold Locked_ctor. intros H.
  destruct (owners w !! mutex) as [s|] eqn:Hs; simplify_eq/=.
  destruct (m_lock t (mutex_ s)) as [m'|] eqn:Hm; simplify_eq/=.
  by eexists _, _.
Qed.

Lemma Locked_dtor_Some g w w' :
  Locked_dtor g w = Some w' →
  ∃ t l s, guards w !! g = Some (t, l) ∧ owners w !! lock_ l = Some s ∧
           w' = mkWorld (<[lock_ l := mkSynced (m_unlock t (mutex_ s)) (owned_ s)]> (owners w))
                        (delete g (guards w)).
Proof.
  unfold Locked_dtor. intros H.
  destruct (guards w !! g) as [[t l]|] eqn:Hg; simplify_eq/=.
  destruct (owners w !! lock_ l) as [s|] eqn:Hs; simplify_eq/=.
  by eexists _, _, _.
Qed.

Lemma write_ref_Some r v w w' :
  write_ref r v w = Some w' →
  ∃ s, owners w !! r = Some s ∧
       w' = mkWorld (<[r := mkSynced (mutex_ s) v]> (owners w)) (guards w).
Proof.
  unfold write_ref. intros H.
  destruct (owners w !! r) as [s|] eqn:Hs; simplify_eq/=. by eexists.
Qed.

Lemma guards_fresh w : guards w !! fresh (dom (guards w)) = None.
Proof. apply not_elem_of_dom, is_fresh. Qed.

Lemma owners_fresh w : owners w !! fresh (dom (owners w)) = None.
Proof. apply not_elem_of_dom, is_fresh. Qed.

Lemma initial_consistent w : initial w → consistent w.
Proof.
  intros [Hg _]. split.
  - intros g t l. by rewrite Hg, lookup_empty.
  - intros g1 g2 t1 t2 l1 l2. by rewrite Hg, lookup_empty.
Qed.

Lemma step_consistent w e w' : consistent w → step w e w' → consistent w'.
Proof.
  intros [Hheld Huniq] Hstep.
  destruct Hstep as [rhs w o w' Hc|t o w g w' Hl|t g r v w w' Hw|t g l w w' Hg Hd].
  - (* a new owner *)
    injection Hc as <- <-. split; simpl; [|done].
    intros g t l Hg. destruct (Hheld _ _ _ Hg) as [Hrl (s & Hs & Hm)].
    split; [done|]. exists s. split; [|done].
    rewrite lookup_insert_ne; [done|].
    intros Heq. by rewrite <-Heq, owners_fresh in Hs.
  - (* a guard is granted *)
    apply Locked_ctor_Some in Hl as (s & m' & Hs & Hm & -> & ->).
    destruct (m_lock_held _ _ _ Hm) as [Hfree Hnow].
    assert (∀ g' t' l', guards w !! g' = Some (t', l') → lock_ l' ≠ o) as Hother.
    { intros g' t' l' Hg' Heq. destruct (Hheld _ _ _ Hg') as [_ (s' & Hs' & Hm')].
      rewrite Heq, Hs in Hs'. injection Hs' as <-. congruence. }
    split; simpl.
    + intros g t' l. rewrite lookup_insert. case_decide.
      * intros [= <- <-]. split; [done|]. simpl.
        eexists. by rewrite lookup_insert_eq.
      * intros Hg. destruct (Hheld _ _ _ Hg) as [Hrl (s' & Hs' & Hm')].
        split; [done|]. exists s'. split; [|done].
        rewrite lookup_insert_ne; [done|]. intros Heq. by eapply Hother.
    + intros g1 g2 t1 t2 l1 l2. rewrite !lookup_insert.
      repeat case_decide; simplify_eq/=; try done.
      * intros [= <- <-] Hg2 Heq. simpl in Heq. by destruct (Hother _ _ _ Hg2).
      * intros Hg1 [= <- <-] Heq. simpl in Heq. by destruct (Hother _ _ _ Hg1).
      * apply Huniq.
  - (* a write to a payload *)
    apply write_ref_Some in Hw as (s & Hs & ->). split; simpl; [|done].
    intros g' t' l' Hg'. destruct (Hheld _ _ _ Hg') as [Hrl (s' & Hs' & Hm')].
    split; [done|]. rewrite lookup_insert. case_decide as Heq.
    + eexists. split; [done|]. simpl. rewrite <-Heq, Hs in Hs'. by injection Hs' as <-.
    + by exists s'.
  - (* a guard is destroyed *)
    apply Locked_dtor_Some in Hd as (t0 & l0 & s & Hg0 & Hs & ->).
    rewrite Hg in Hg0. injection Hg0 as <- <-. split; simpl.
    + intros g' t' l'. rewrite lookup_delete. case_decide; [done|].
      intros Hg'. destruct (Hheld _ _ _ Hg') as [Hrl (s' & Hs' & Hm')].
      split; [done|]. exists s'. split; [|done].
      rewrite lookup_insert_ne; [done|].
      intros Heq. by specialize (Huniq _ _ _ _ _ _ Hg Hg' Heq).
    + intros g1 g2 t1 t2 l1 l2. rewrite !lookup_delete.
      repeat case_decide; try done. apply Huniq.
Qed.

Lemma exec_consistent w es w' : consistent w → exec w es w' → consistent w'.
Proof. intros Hw Hex. induction Hex; eauto using step_consistent. Qed.

Lemma exec_app w es1 es2 w' :
  exec w (es1 ++ es2) w' ↔ ∃ wm, exec w es1 wm ∧ exec wm es2 w'.
Proof.
  split.
  - revert w. induction es1 as [|e es1 IH]; intros w Hex; simpl in *.
    + exists w. split; [constructor|done].
    + inversion Hex as [|? ? w1 ? ? Hstep Hrest]; subst.
      destruct (IH _ Hrest) as (wm & ? & ?).
      exists wm. split; [by econstructor|done].
  - intros (wm & H1 & H2). induction H1; simpl; [done|].
    econstructor; eauto.
Qed.

(** A live guard stays alive until its own destructor runs. *)
Lemma exec_guard_alive w es w' g t l :
  exec w es w' → guards w !! g = Some (t, l) →
  Released t g (lock_ l) ∈ es ∨ guards w' !! g = Some (t, l).
Proof.
  intros Hex. induction Hex as [w|w e w' es w'' Hstep Hex IH]; intros Hg.
  - by right.
  - assert (e = Released t g (lock_ l) ∨ guards w' !! g = Some (t, l)) as [->|Hg'].
    { destruct Hstep as [rhs w o w' Hc|t0 o w g0 w' Hl|t0 g0 r v w w' Hw
                        |t0 g0 l0 w w' Hg0 Hd].
      - injection Hc as <- <-. by right.
      - apply Locked_ctor_Some in Hl as (s & m' & Hs & Hm & -> & ->).
        right. simpl. rewrite lookup_insert_ne; [done|].
        intros Heq. by rewrite <-Heq, guards_fresh in Hg.
      - apply write_ref_Some in Hw as (s & Hs & ->). by right.
      - apply Locked_dtor_Some in Hd as (t1 & l1 & s & Hg1 & Hs & ->).
        destruct (decide (g0 = g)) as [->|Hne].
        + left. rewrite Hg in Hg0. by injection Hg0 as <- <-.
        + right. simpl. by rewrite lookup_delete_ne. }
    + left. apply list_elem_of_here.
    + destruct (IH Hg') as [Hin|Halive]; [left|by right].
      by apply list_elem_of_further.
Qed.

(** At most one key: at most one element. *)
Lemma map_size_le_1 {A} (m : gmap addr A) :
  (∀ i j x y, m !! i = Some x → m !! j = Some y → i = j) → size m ≤ 1.
Proof.
  intros Huniq. destruct (map_choose_or_empty m) as [(i & x & Hi)| ->].
  - assert (m = {[i := x]}) as ->; [|by rewrite map_size_singleton].
    apply map_eq. intros j. destruct (decide (j = i)) as [->|Hne].
    + by rewrite lookup_singleton_eq.
    + rewrite lookup_singleton_ne by done.
      destruct (m !! j) as [y|] eqn:Hj; [|done].
      by destruct Hne, (Huniq _ _ _ _ Hj Hi).
  - rewrite map_size_empty. lia.
Qed.

Lemma consistent_live_guards w o : consistent w → size (live_guards o w) ≤ 1.
Proof.
  intros [_ Huniq]. apply map_size_le_1. intros g1 g2 [t1 l1] [t2 l2].
  unfold live_guards. rewrite !map_lookup_filter_Some. simpl.
  intros [Hg1 <-] [Hg2 Heq]. by eapply Huniq.
Qed.

(** C7: whatever the threads do, and however many they are, there is
    at most one live guard over an owner at any time, and a second
    guard over the same owner is granted only after the destructor of
    the first has run: the lifetimes of the guards are disjoint. *)
Theorem guards_mutually_exclusive w0 es w o :
  initial w0 → exec w0 es w →
  size (live_guards o w) ≤ 1 ∧
  (∀ es1 es2 es3 t1 t2 g1 g2,
     es = es1 ++ Acquired t1 g1 o :: es2 ++ Acquired t2 g2 o :: es3 →
     Released t1 g1 o ∈ es2).
Proof.
  intros Hinit Hex. split.
  - apply consistent_live_guards.
    eapply exec_consistent; [by apply initial_consistent|done].
  - intros es1 es2 es3 t1 t2 g1 g2 ->.
    apply exec_app in Hex as (wa & Hex1 & Hex).
    inversion Hex as [|? ? wb ? ? Hacq1 Hex']; subst. clear Hex.
    apply exec_app in Hex' as (wc & Hex2 & Hex).
    inversion Hex as [|? ? wd ? ? Hacq2 _]; subst. clear Hex.
    assert (consistent wb) as Hwb.
    { eapply step_consistent; [|done].
      eapply exec_consistent; [by apply initial_consistent|done]. }
    inversion Hacq1 as [|? ? ? ? ? Hl1| |]; subst.
    apply Locked_ctor_Some in Hl1 as (s1 & m1 & Hs1 & Hm1 & Hg1 & ->).
    destruct (exec_guard_alive _ _ _ g1 t1 (mkLocked o o) Hex2) as [Hin|Halive];
      [by simpl; rewrite lookup_insert_eq|done|].
    exfalso.
    destruct (exec_consistent _ _ _ Hwb Hex2) as [Hheld _].
    destruct (Hheld _ _ _ Halive) as [_ (s & Hs & Hm)]. simpl in Hs.
    inversion Hacq2 as [|? ? ? ? ? Hl2| |]; subst.
    apply Locked_ctor_Some in Hl2 as (s2 & m2 & Hs2 & Hm2 & _ & _).
    rewrite Hs in Hs2. injection Hs2 as <-.
    destruct (m_lock_held _ _ _ Hm2) as [Hfree _]. congruence.
Qed.

(** Only a write to the payload of [o] changes it. *)
Lemma exec_payload_frame w es w' o v :
  exec w es w' →
  (∀ t g v', Wrote t g o v' ∉ es) →
  read_ref o w = Some v → read_ref o w' = Some v.
Proof.
  intros Hex. induction Hex as [w|w e w' es w'' Hstep Hex IH]; intros Hnw Hv; [done|].
  apply IH.
  { intros t g v' Hin. apply (Hnw t g v'). by apply list_elem_of_further. }
  unfold read_ref in *.
  destruct (owners w !! o) as [s|] eqn:Hs; simplify_eq/=.
  destruct Hstep as [rhs w o' w' Hc|t0 o' w g0 w' Hl|t0 g0 r v' w w' Hw
                    |t0 g0 l0 w w' Hg0 Hd].
  - injection Hc as <- <-. simpl. rewrite lookup_insert_ne; [by rewrite Hs|].
    intros Heq. by rewrite <-Heq, owners_fresh in Hs.
  - apply Locked_ctor_Some in Hl as (s1 & m1 & Hs1 & Hm1 & -> & ->). simpl.
    rewrite lookup_insert. case_decide as Heq; [|by rewrite Hs].
    rewrite Heq, Hs in Hs1. by injection Hs1 as <-.
  - apply write_ref_Some in Hw as (s1 & Hs1 & ->). simpl.
    rewrite lookup_insert_ne; [by rewrite Hs|].
    intros ->. apply (Hnw t0 g0 v'). apply list_elem_of_here.
  - apply Locked_dtor_Some in Hd as (t1 & l1 & s1 & Hg1 & Hs1 & ->). simpl.
    rewrite lookup_insert. case_decide as Heq; [|by rewrite Hs].
    rewrite Heq, Hs in Hs1. by injection Hs1 as <-.
Qed.

(** C10: the guard that [lock()] returns refers to the payload stored
    in the owner.  A value written through the guard is the owner's
    payload, still so after the guard is destroyed; the owner can then be
    locked again, by any thread, and any guard acquired later on that
    owner reads that value, as long as no other write through a guard has
    replaced it. *)
Theorem guard_aliases_owner_payload w o t g w1 v :
  Synced_lock o t w = Some (g, w1) →
  Locked_operator_star g w1 = Some o ∧
  Locked_operator_arrow g w1 = Some o ∧
  ∃ w2 w3,
    write_ref o v w1 = Some w2 ∧
    read_ref o w2 = Some v ∧
    Locked_dtor g w2 = Some w3 ∧
    guards w3 !! g = None ∧
    read_ref o w3 = Some v ∧
    (∀ t', is_Some (Synced_lock o t' w3)) ∧
    ∀ es w4 t' g' w5,
      exec w3 es w4 →
      (∀ t'' g'' v', Wrote t'' g'' o v' ∉ es) →
      Synced_lock o t' w4 = Some (g', w5) →
      Locked_operator_star g' w5 = Some o ∧ read_ref o w5 = Some v.
Proof.
  intros Hl. apply Locked_ctor_Some in Hl as (s & m' & Hs & Hm & Hg & ->).
  unfold Locked_operator_star, Locked_operator_arrow, write_ref, read_ref,
    Locked_dtor. simpl.
  rewrite !lookup_insert_eq. simpl. split_and!; [done..|].
  eexists _, _.
  split; [reflexivity|]. simpl.
  split; [by rewrite lookup_insert_eq|].
  repeat (rewrite lookup_insert_eq; simpl).
  split; [reflexivity|]. simpl.
  split; [by rewrite lookup_delete_eq|].
  split; [by rewrite lookup_insert_eq|].
  split.
  { intros t'. unfold Synced_lock, Locked_ctor. simpl.
    rewrite lookup_insert_eq. simpl.
    destruct (m_lock_grant t' (m_unlock t m') (m_unlock_free t m')) as [m'' ->].
    by eexists. }
  intros es w4 t' g' w5 Hex Hnw Hl'.
  assert (read_ref o w4 = Some v) as Hv.
  { eapply exec_payload_frame; [done..|].
    unfold read_ref. simpl. by rewrite lookup_insert_eq. }
  apply Locked_ctor_Some in Hl' as (s' & m'' & Hs' & Hm' & Hg' & ->).
  unfold read_ref in *. simpl. rewrite !lookup_insert_eq. simpl.
  split; [done|]. by rewrite Hs' in Hv.
Qed.

End LockFacts.

Section LockExamples.
Import Bound Lock Example.

Lemma one_owner_initial : initial one_owner.
Proof.
  split; [reflexivity|]. intros o s Ho.
  unfold one_owner, Synced_ctor in Ho. simpl in Ho.
  apply lookup_insert_Some in Ho as [[_ <-]|[_ Ho]]; [done|].
  by rewrite lookup_empty in Ho.
Qed.

Lemma hand_over_exec : exec one_owner hand_over handed_over.
Proof.
  unfold hand_over.
  eapply exec_cons; [by apply step_lock|].
  eapply exec_cons; [by eapply step_write|].
  eapply exec_cons; [by eapply (step_unlock 1 0 (mkLocked 0 0))|].
  eapply exec_cons; [by apply step_lock|].
  vm_compute. apply exec_nil.
Qed.

Lemma guards_mutually_exclusive_witness :
  (initial one_owner ∧ exec one_owner hand_over handed_over) ∧
  size (live_guards 0 handed_over) ≤ 1 ∧
  (∀ es1 es2 es3 t1 t2 g1 g2,
     hand_over = es1 ++ Acquired t1 g1 0 :: es2 ++ Acquired t2 g2 0 :: es3 →
     Released t1 g1 0 ∈ es2).
Proof.
  split; [split; [apply one_owner_initial|apply hand_over_exec]|].
  apply (guards_mutually_exclusive one_owner hand_over handed_over 0).
  - apply one_owner_initial.
  - apply hand_over_exec.
Defined.

Lemma guard_aliases_owner_payload_witness :
  Synced_lock 0 1 one_owner = Some (0, locked_by_1) ∧
  Locked_operator_star 0 locked_by_1 = Some 0 ∧
  Locked_operator_arrow 0 locked_by_1 = Some 0 ∧
  ∃ w2 w3,
    write_ref 0 7%Z locked_by_1 = Some w2 ∧
    read_ref 0 w2 = Some 7%Z ∧
    Locked_dtor 0 w2 = Some w3 ∧
    guards w3 !! 0 = None ∧
    read_ref 0 w3 = Some 7%Z ∧
    (∀ t', is_Some (Synced_lock 0 t' w3)) ∧
    ∀ es w4 t' g' w5,
      exec w3 es w4 →
      (∀ t'' g'' v', Wrote t'' g'' 0 v' ∉ es) →
      Synced_lock 0 t' w4 = Some (g', w5) →
      Locked_operator_star g' w5 = Some 0 ∧ read_ref 0 w5 = Some 7%Z.
Proof.
  split; [reflexivity|].
  apply (guard_aliases_owner_payload one_owner 0 1 0 locked_by_1 7%Z).
  reflexivity.
Defined.

End LockExamples.

(** * Further properties of the thread-bound guard

    How construction, copy, move and access compose. *)

Section ThreadBoundUse.
Import Bound.
Context {T : Type} `{!Movable T}.
Variable hasher : thread_id → N.
Implicit Types (t a b x y : thread) (σ : gmap addr (ThreadBound T)) (g n : addr)
  (G : ThreadBound T) (op : addr → @M T addr).

Abbreviation accessors :=
  ([operator_star hasher; operator_arrow hasher;
    operator_star_const hasher; operator_arrow_const hasher]
   : list (addr → @M T addr)).

Ltac run_m := unfold mbind, M_bind, mret, M_ret; simpl.

Lemma accessor_unbound op t σ g G :
  op ∈ accessors → σ !! g = Some G → owner_id G = unbound →
  op g t σ = Done (g, <[g := mkThreadBound (object G) (id_of t)]> σ).
Proof.
  intros Hop Hg Hu. rewrite (accessor_eq hasher _ Hop). run_m.
  by rewrite (validate__unbound _ _ _ _ G).
Qed.

Lemma accessor_owner op t σ g G :
  op ∈ accessors → σ !! g = Some G → owner_id G = id_of t →
  op g t σ = Done (g, σ).
Proof.
  intros Hop Hg Ho. rewrite (accessor_eq hasher _ Hop). run_m.
  by rewrite (validate__owner _ _ _ _ G).
Qed.

Lemma accessor_other op t σ g G :
  op ∈ accessors → σ !! g = Some G →
  owner_id G ≠ unbound → owner_id G ≠ id_of t →
  op g t σ = Panic (violation_message (hasher (owner_id G)) (hasher (id_of t))).
Proof.
  intros Hop Hg Hu Ho. rewrite (accessor_eq hasher _ Hop). run_m.
  by rewrite (validate__other _ _ _ _ G).
Qed.

Lemma access_read op t σ g σ' G' :
  op g t σ = Done (g, σ') → σ' !! g = Some G' →
  (r ← op g; read r) t σ = Done (object G', σ').
Proof. intros Hop Hg. run_m. rewrite Hop. by apply read_eq. Qed.

Lemma id_of_ne a b : a ≠ b → id_of a ≠ id_of b.
Proof. congruence. Qed.

(** X1: a guard made by [make_thread_bound] on thread [t] is bound to
    [t]: every accessor gives [t] the payload and changes nothing, and
    panics for any other thread, naming [t] and that thread. *)
Theorem construct_then_access obj t σ op :
  op ∈ accessors →
  ∃ g σ1,
    make_thread_bound obj t σ = Done (g, σ1) ∧
    σ !! g = None ∧
    σ1 = <[g := mkThreadBound obj (id_of t)]> σ ∧
    (r ← op g; read r) t σ1 = Done (obj, σ1) ∧
    ∀ y, y ≠ t →
      op g y σ1 = Panic (violation_message (hasher (id_of t)) (hasher (id_of y))).
Proof.
  intros Hop. eexists _, _. split; [reflexivity|].
  split; [apply alloc_fresh|]. split; [reflexivity|].
  set (g := fresh (dom σ)). set (G := mkThreadBound obj (id_of t)).
  assert (<[g := G]> σ !! g = Some G) as Hg by apply lookup_insert_eq.
  split.
  - apply (access_read _ _ _ _ _ G); [|done]. by apply (accessor_owner _ _ _ _ G).
  - intros y Hy. apply (accessor_other _ _ _ _ G); [done..| |]; simpl.
    + discriminate.
    + by apply id_of_ne, not_eq_sym.
Qed.

(** X2: a guard made with [defer_binding] is unbound whichever thread
    makes it; the first access, by any thread [x], gives the payload and
    binds the guard to [x]; from then on [x] accesses it with no further
    change and every other thread panics. *)
Theorem deferred_binds_on_first_access obj t x σ op op' :
  op ∈ accessors → op' ∈ accessors →
  ∃ g σ1 σ2,
    make_thread_bound_defer obj t σ = Done (g, σ1) ∧
    σ !! g = None ∧
    (∀ t', is_unbound g t' σ1 = Done (true, σ1)) ∧
    (r ← op g; read r) x σ1 = Done (obj, σ2) ∧
    get_owner_id g x σ2 = Done (id_of x, σ2) ∧
    (r ← op' g; read r) x σ2 = Done (obj, σ2) ∧
    ∀ y, y ≠ x →
      op' g y σ2 = Panic (violation_message (hasher (id_of x)) (hasher (id_of y))).
Proof.
  intros Hop Hop'. eexists _, _, _. split; [reflexivity|].
  split; [apply alloc_fresh|].
  set (g := fresh (dom σ)). set (G := mkThreadBound obj not_a_thread).
  set (G' := mkThreadBound obj (id_of x)).
  assert (<[g := G]> σ !! g = Some G) as Hg by apply lookup_insert_eq.
  assert (<[g := G']> (<[g := G]> σ) !! g = Some G') as Hg' by apply lookup_insert_eq.
  split_and!.
  - intros t'. by rewrite (is_unbound_eq _ _ _ G).
  - apply (access_read _ _ _ _ _ G'); [|done]. by apply (accessor_unbound _ _ _ _ G).
  - by rewrite (get_owner_id_eq _ _ _ G').
  - apply (access_read _ _ _ _ _ G'); [|done]. by apply (accessor_owner _ _ _ _ G').
  - intros y Hy. apply (accessor_other _ _ _ _ G'); [done..| |]; simpl.
    + discriminate.
    + by apply id_of_ne, not_eq_sym.
Qed.

(** X3: when an accessor returns, it returns a reference to the payload
    of its own guard; the payload is what it was, the guard is bound to
    the caller and no longer reports unbound, a guard that was bound
    already is left exactly as it was, and no other guard is touched. *)
Theorem access_changes_only_the_owner op t σ g G r σ' :
  op ∈ accessors → σ !! g = Some G →
  op g t σ = Done (r, σ') →
  r = g ∧
  (∀ a', a' ≠ g → σ' !! a' = σ !! a') ∧
  σ' !! g = Some (mkThreadBound (object G) (id_of t)) ∧
  (owner_id G ≠ unbound → σ' = σ) ∧
  (∀ t', is_unbound g t' σ' = Done (false, σ')).
Proof.
  intros Hop Hg Hrun.
  assert (σ' !! g = Some (mkThreadBound (object G) (id_of t)) →
          ∀ t', is_unbound g t' σ' = Done (false, σ')) as Hbound.
  { intros Hg' t'. by rewrite (is_unbound_eq _ _ _ _ Hg'). }
  destruct (decide (owner_id G = unbound)) as [Hu|Hu].
  - rewrite (accessor_unbound _ _ _ _ G) in Hrun by done.
    injection Hrun as <- <-.
    assert (<[g := mkThreadBound (object G) (id_of t)]> σ !! g
            = Some (mkThreadBound (object G) (id_of t))) as Hg'
      by apply lookup_insert_eq.
    split_and!; [done| |done|done|by apply Hbound].
    intros a' Ha. by rewrite lookup_insert_ne.
  - destruct (decide (owner_id G = id_of t)) as [Ho|Ho].
    + rewrite (accessor_owner _ _ _ _ G) in Hrun by done.
      injection Hrun as <- <-.
      assert (σ !! g = Some (mkThreadBound (object G) (id_of t))) as Hg'.
      { rewrite Hg. f_equal. destruct G as [obj o]. simpl in *. by rewrite Ho. }
      split_and!; [done|done|done|done|by apply Hbound].
    + by rewrite (accessor_other _ _ _ _ G) in Hrun.
Qed.

(** X4: use after move is not detected.  After a move the source is an
    unbound guard over the moved-from payload: whichever thread accesses
    it first gets that payload and binds the source to itself. *)
Theorem moved_from_guard_rebinds op t σ g G x :
  op ∈ accessors → σ !! g = Some G →
  ∃ n σ1,
    move_ctor g t σ = Done (n, σ1) ∧
    (r ← op g; read r) x σ1 =
      Done (moved_from (object G),
            <[g := mkThreadBound (moved_from (object G)) (id_of x)]> σ1).
Proof.
  intros Hop Hg. eexists _, _. split; [by apply move_ctor_eq|].
  set (σ1 := <[g := _]> _).
  assert (σ1 !! g = Some (mkThreadBound (moved_from (object G)) unbound)) as Hg1
    by apply lookup_insert_eq.
  eapply (access_read _ _ _ _ _ (mkThreadBound (moved_from (object G)) (id_of x))).
  - by rewrite (accessor_unbound _ _ _ _ _ Hop Hg1).
  - apply lookup_insert_eq.
Qed.

(** X5: a move hands a guard over without asking its owner.  When thread
    [b] moves a guard bound to another thread [a], the move returns, [b]
    accesses the new guard and reads the payload of the old one, and [a]
    panics on the new guard. *)
Theorem move_hands_over op a b σ g G :
  op ∈ accessors → σ !! g = Some G → owner_id G = id_of a → a ≠ b →
  ∃ n σ1,
    move_ctor g b σ = Done (n, σ1) ∧
    (r ← op n; read r) b σ1 = Done (object G, σ1) ∧
    op n a σ1 = Panic (violation_message (hasher (id_of b)) (hasher (id_of a))).
Proof.
  intros Hop Hg Ho Hab. eexists _, _. split; [by apply move_ctor_eq|].
  assert (fresh (dom σ) ≠ g) as Hne.
  { intros <-. by rewrite alloc_fresh in Hg. }
  set (n := fresh (dom σ)) in *. set (σ1 := <[g := _]> _).
  assert (σ1 !! n = Some (mkThreadBound (object G) (id_of b))) as Hn.
  { unfold σ1. rewrite lookup_insert_ne, lookup_insert_eq by done.
    rewrite decide_False; [done|]. by rewrite Ho. }
  split.
  - eapply (access_read _ _ _ _ _ (mkThreadBound (object G) (id_of b)));
      [by rewrite (accessor_owner _ _ _ _ _ Hop Hn)|exact Hn].
  - rewrite (accessor_other _ _ _ _ _ Hop Hn); [done|discriminate|].
    simpl. by apply id_of_ne, not_eq_sym.
Qed.

(** X6: a copy belongs to the thread that makes it.  When thread [b]
    copies a guard bound to another thread [a], the copy returns although
    [b] does not own the source; [b] accesses the copy and reads the
    payload of the source, [a] panics on the copy; the source is still
    [a]'s: [a] accesses it and [b] panics on it. *)
Theorem copy_belongs_to_copier op a b σ g G :
  op ∈ accessors → σ !! g = Some G → owner_id G = id_of a → a ≠ b →
  ∃ n σ1,
    copy_ctor g b σ = Done (n, σ1) ∧
    (r ← op n; read r) b σ1 = Done (object G, σ1) ∧
    op n a σ1 = Panic (violation_message (hasher (id_of b)) (hasher (id_of a))) ∧
    (r ← op g; read r) a σ1 = Done (object G, σ1) ∧
    op g b σ1 = Panic (violation_message (hasher (id_of a)) (hasher (id_of b))).
Proof.
  intros Hop Hg Ho Hab. eexists _, _. split; [by apply copy_ctor_eq|].
  assert (fresh (dom σ) ≠ g) as Hne.
  { intros <-. by rewrite alloc_fresh in Hg. }
  set (n := fresh (dom σ)) in *. set (σ1 := <[n := _]> _).
  assert (σ1 !! n = Some (mkThreadBound (object G) (id_of b))) as Hn.
  { unfold σ1. rewrite lookup_insert_eq.
    rewrite decide_False; [done|]. by rewrite Ho. }
  assert (σ1 !! g = Some G) as Hg1.
  { unfold σ1. by rewrite lookup_insert_ne. }
  split_and!.
  - eapply (access_read _ _ _ _ _ (mkThreadBound (object G) (id_of b)));
      [by rewrite (accessor_owner _ _ _ _ _ Hop Hn)|exact Hn].
  - rewrite (accessor_other _ _ _ _ _ Hop Hn); [done|discriminate|].
    simpl. by apply id_of_ne, not_eq_sym.
  - eapply access_read; [by rewrite (accessor_owner _ _ _ _ _ Hop Hg1)|exact Hg1].
  - rewrite (accessor_other _ _ _ _ _ Hop Hg1); rewrite Ho;
      [done|discriminate|by apply id_of_ne].
Qed.

(** X7: a copy has a payload of its own.  A value written to the
    payload of the source after the copy does not show in the copy, and
    a value written to the payload of the copy does not show in the
    source. *)
Theorem copies_are_independent t σ g G v t' :
  σ !! g = Some G →
  ∃ n σ1,
    copy_ctor g t σ = Done (n, σ1) ∧
    (write g v;; read n) t' σ1 =
      Done (object G, <[g := mkThreadBound v (owner_id G)]> σ1) ∧
    ∃ σ2, (write n v;; read g) t' σ1 = Done (object G, σ2) ∧
          object <$> σ2 !! n = Some v.
Proof.
  intros Hg. eexists _, _. split; [by apply copy_ctor_eq|].
  assert (fresh (dom σ) ≠ g) as Hne.
  { intros <-. by rewrite alloc_fresh in Hg. }
  set (n := fresh (dom σ)) in *. set (σ1 := <[n := _]> _).
  assert (σ1 !! g = Some G) as Hg1.
  { unfold σ1. by rewrite lookup_insert_ne. }
  assert (∃ Gn, σ1 !! n = Some Gn ∧ object Gn = object G) as (Gn & Hn & Hobj).
  { eexists. unfold σ1. by rewrite lookup_insert_eq. }
  split.
  - unfold write. run_m. rewrite (load_eq _ _ _ G), (store_eq _ _ _ G) by done.
    erewrite read_eq; [by rewrite Hobj|]. by rewrite lookup_insert_ne.
  - eexists. unfold write. run_m.
    rewrite (load_eq _ _ _ Gn), (store_eq _ _ _ Gn) by done.
    erewrite read_eq; [|by rewrite lookup_insert_ne]. split; [done|].
    by rewrite lookup_insert_eq.
Qed.

End ThreadBoundUse.

(** * Further properties of the capability classifier *)

Section CapabilityUse.
Import Capability.

(** X8: with the registrations of the header, [int] is the only payload
    a lock owner or a lock guard accepts: [Send T] holds exactly when [T]
    is [int], possibly const or a reference; and [Sync T] holds exactly
    when [T] is, up to const and reference, a lock owner over such an
    [int] and a [Mutex]. *)
Theorem Send_only_int T :
  (Send T = true ↔ remove_cvref_t T = TInt) ∧
  (Sync T = true ↔
     ∃ U M, remove_cvref_t T = TSynced U M ∧ remove_cvref_t U = TInt ∧
            Mutex M = true).
Proof.
  assert (∀ V, Send V = true ↔ remove_cvref_t V = TInt) as Hsend.
  { intros V. unfold Send. destruct (remove_cvref_t V) as [| |d|U M|U M|U|U|U|U].
    all: try (split; [intros H; discriminate H|intros H; discriminate H]).
    - done.
    - rewrite Synced_not_movable, andb_false_r. split; intros H; discriminate H.
    - rewrite andb_false_r. split; intros H; discriminate H. }
  split; [apply Hsend|].
  unfold Sync. rewrite send_tag_v_const_ref.
  split; intros (U & M & HT & HU & HM); exists U, M; split_and!; try done;
    by apply Hsend.
Qed.

Lemma Send_only_int_witness :
  (remove_cvref_t (TRRef (TConst TInt)) = TInt ∧
   Send (TRRef (TConst TInt)) = true) ∧
  ((∃ U M, remove_cvref_t (TSynced (TLRef TInt) TStdMutex) = TSynced U M ∧
           remove_cvref_t U = TInt ∧ Mutex M = true) ∧
   Sync (TSynced (TLRef TInt) TStdMutex) = true).
Proof.
  split.
  - split; [reflexivity|].
    apply (proj2 (proj1 (Send_only_int (TRRef (TConst TInt))))). reflexivity.
  - assert (∃ U M, remove_cvref_t (TSynced (TLRef TInt) TStdMutex) = TSynced U M ∧
                   remove_cvref_t U = TInt ∧ Mutex M = true) as Hreg.
    { exists (TLRef TInt), TStdMutex. repeat split; reflexivity. }
    split; [exact Hreg|].
    apply (proj2 (proj2 (Send_only_int (TSynced (TLRef TInt) TStdMutex)))).
    exact Hreg.
Defined.

End CapabilityUse.

(** * Further properties of the lock owner and its guards *)

Section LockUse.
Import Bound Lock.
Context {T M : Type} `{!Lockable M}.
Implicit Types (w : world T M) (o g r : addr) (t : thread) (l : Locked)
  (e : event (T:=T)) (es : list (event (T:=T))).

(** A mutex is held only while a guard over its owner is alive. *)
Lemma step_held_guard w e w' :
  (∀ o s, owners w !! o = Some s → m_held (mutex_ s) = true →
          ∃ g t, guards w !! g = Some (t, mkLocked o o)) →
  step w e w' →
  ∀ o s, owners w' !! o = Some s → m_held (mutex_ s) = true →
         ∃ g t, guards w' !! g = Some (t, mkLocked o o).
Proof.
  intros Hinv Hstep.
  destruct Hstep as [rhs w o0 w' Hc|t0 o0 w g0 w' Hl|t0 g0 r v w w' Hw
                    |t0 g0 l0 w w' Hg0 Hd]; intros o s.
  - injection Hc as <- <-. simpl. rewrite lookup_insert. case_decide.
    + intros [= <-]. simpl. by rewrite m_new_free.
    + apply Hinv.
  - apply Locked_ctor_Some in Hl as (s0 & m' & Hs0 & Hm & -> & ->). simpl.
    rewrite lookup_insert. case_decide as Ho.
    + intros _ _. subst o0. eexists _, t0. apply lookup_insert_eq.
    + intros Hs Hheld. destruct (Hinv _ _ Hs Hheld) as (g & t & Hg).
      exists g, t. rewrite lookup_insert_ne; [done|].
      intros Heq. by rewrite <-Heq, guards_fresh in Hg.
  - apply write_ref_Some in Hw as (s0 & Hs0 & ->). simpl.
    rewrite lookup_insert. case_decide as Ho.
    + intros [= <-]. simpl. subst r. by apply Hinv.
    + apply Hinv.
  - apply Locked_dtor_Some in Hd as (t1 & l1 & s0 & Hg1 & Hs0 & ->). simpl.
    rewrite Hg0 in Hg1. injection Hg1 as <- <-.
    rewrite lookup_insert. case_decide as Ho.
    + intros [= <-]. simpl. by rewrite m_unlock_free.
    + intros Hs Hheld. destruct (Hinv _ _ Hs Hheld) as (g & t & Hg).
      exists g, t. rewrite lookup_delete_ne; [done|].
      intros <-. rewrite Hg0 in Hg. by injection Hg as _ ->.
Qed.

Lemma exec_held_guard w0 es w :
  initial w0 → exec w0 es w →
  ∀ o s, owners w !! o = Some s → m_held (mutex_ s) = true →
         ∃ g t, guards w !! g = Some (t, mkLocked o o).
Proof.
  intros [_ Hfree] Hex.
  assert (∀ o s, owners w0 !! o = Some s → m_held (mutex_ s) = true →
                 ∃ g t, guards w0 !! g = Some (t, mkLocked o o)) as Hinv.
  { intros o s Hs Hheld. by rewrite (Hfree _ _ Hs) in Hheld. }
  clear Hfree. induction Hex as [w|w e w' es w'' Hstep Hex IH]; [done|].
  apply IH. by apply (step_held_guard w e).
Qed.

(** X9: [lock()] waits exactly while a guard over the owner is alive.
    In every state the threads can reach, a call of [lock()] on an owner
    returns a guard unless some guard over that owner is alive, and does
    not return while one is. *)
Theorem lock_waits_while_guard_alive w0 es w o t :
  initial w0 → exec w0 es w → is_Some (owners w !! o) →
  Synced_lock o t w = None ↔ ∃ g t', guards w !! g = Some (t', mkLocked o o).
Proof.
  intros Hinit Hex [s Hs].
  assert (Synced_lock o t w = None ↔ m_lock t (mutex_ s) = None) as ->.
  { unfold Synced_lock, Locked_ctor. rewrite Hs. simpl.
    by destruct (m_lock t (mutex_ s)). }
  split.
  - intros Hwait. destruct (m_held (mutex_ s)) eqn:Hheld.
    + by apply (exec_held_guard w0 es w Hinit Hex o s).
    + destruct (m_lock_grant t _ Hheld) as [m' Hm']. congruence.
  - intros (g & t' & Hg).
    destruct (exec_consistent _ _ _ (initial_consistent _ Hinit) Hex) as [Hheld _].
    destruct (Hheld _ _ _ Hg) as [_ (s' & Hs' & Hm)]. simpl in Hs'.
    rewrite Hs in Hs'. injection Hs' as <-.
    destruct (m_lock t (mutex_ s)) as [m'|] eqn:Hl; [|done].
    destruct (m_lock_held _ _ _ Hl). congruence.
Qed.

(** X10: the destructor of a guard always releases.  In every state the
    threads can reach, destroying a live guard returns, the guard is
    gone, no guard over its owner is left, the payload of the owner is
    what it was, and [lock()] on that owner returns for any thread. *)
Theorem guard_release_unconditional w0 es w g t l :
  initial w0 → exec w0 es w → guards w !! g = Some (t, l) →
  ∃ w',
    Locked_dtor g w = Some w' ∧
    guards w' !! g = None ∧
    live_guards (lock_ l) w' = ∅ ∧
    read_ref (lock_ l) w' = read_ref (lock_ l) w ∧
    ∀ t', is_Some (Synced_lock (lock_ l) t' w').
Proof.
  intros Hinit Hex Hg.
  destruct (exec_consistent _ _ _ (initial_consistent _ Hinit) Hex) as [Hheld Huniq].
  destruct (Hheld _ _ _ Hg) as [_ (s & Hs & Hm)].
  eexists. split; [unfold Locked_dtor; by rewrite Hg; simpl; rewrite Hs|].
  simpl. split_and!.
  - apply lookup_delete_eq.
  - apply map_empty. intros g'. apply map_lookup_filter_None. right.
    intros [t' l'] Hg' Heq. simpl in *.
    apply lookup_delete_Some in Hg' as [Hne Hg'].
    by destruct Hne, (Huniq _ _ _ _ _ _ Hg Hg' (eq_sym Heq)).
  - unfold read_ref. simpl. by rewrite lookup_insert_eq, Hs.
  - intros t'. unfold Synced_lock, Locked_ctor. simpl.
    rewrite lookup_insert_eq. simpl.
    destruct (m_lock_grant t' (m_unlock t (mutex_ s)) (m_unlock_free _ _)) as [m' ->].
    by eexists.
Qed.

End LockUse.

(** * The demonstration program, on any two threads *)

Section ExampleProgram.
Import Bound Example.

Ltac find_guard :=
  repeat (rewrite lookup_insert_ne by done); apply lookup_insert_eq.

Ltac fresh_addr :=
  rewrite ?dom_insert_L, ?dom_empty_L;
  repeat match goal with
  | |- context [fresh ?X] =>
      let n := eval vm_compute in (fresh X) in change (fresh X) with n
  end.

Ltac step_m :=
  first
  [ erewrite copy_ctor_eq by find_guard
  | erewrite move_ctor_eq by find_guard
  | erewrite get_owner_id_eq by find_guard
  | erewrite is_unbound_eq by find_guard
  | erewrite read_eq by find_guard
  | erewrite load_eq by find_guard
  | erewrite store_eq by find_guard
  | erewrite validate__unbound by first [find_guard | reflexivity]
  | erewrite validate__owner by first [find_guard | reflexivity] ];
  fresh_addr; simpl.

Ltac start_m :=
  unfold make_thread_bound, make_thread_bound_defer, ctor, ctor_defer,
    on_thread, operator_star, write;
  unfold mbind, M_bind, mret, M_ret, get_id, alloc; simpl;
  fresh_addr.

(** X12: [test1] runs to its end on any two threads.  Its second and
    third assertions hold whatever the threads are: the moved-from guard
    is unbound, and the copy and the moved-to guard have one owner.  Its
    first assertion, that the copy has another owner than the source,
    holds exactly when the thread that copies is not the one that made
    the source. *)
Theorem test1_asserts main t :
  ∃ σ, test1 t main ∅ = Done ([bool_decide (main ≠ t); true; true], σ).
Proof.
  eexists. unfold test1. start_m. repeat step_m.
  rewrite (bool_decide_eq_true_2 (id_of t = id_of t)) by done.
  do 3 f_equal. apply bool_decide_ext. split; congruence.
Qed.

(** X13: [test2] runs to its end with all its eight assertions true, on
    any two threads, also when the thread it starts is the starting
    thread itself. *)
Theorem test2_asserts main t :
  ∃ σ, test2 t main ∅ =
         Done ([true; true; true; true; true; true; true; true], σ).
Proof.
  eexists. unfold test2. start_m. repeat step_m.
  by rewrite !(bool_decide_eq_true_2 (id_of t = id_of t)) by done.
Qed.

(** X14: [intentional_error] panics at the first dereference on the
    thread it starts, whenever that is another thread than the starting
    one; the message names the starting thread as the owner. *)
Theorem intentional_error_panics_on_other_thread main t :
  t ≠ main →
  intentional_error t main ∅ =
    Panic (violation_message (hasher (id_of main)) (hasher (id_of t))).
Proof.
  intros Hne. unfold intentional_error. start_m. repeat step_m.
  erewrite validate__other; [|find_guard|discriminate|simpl; congruence].
  done.
Qed.

Lemma intentional_error_panics_on_other_thread_witness :
  1 ≠ 0 ∧
  intentional_error 1 0 ∅ =
    Panic (violation_message (hasher (id_of 0)) (hasher (id_of 1))).
Proof.
  split; [discriminate|].
  apply (intentional_error_panics_on_other_thread 0 1). discriminate.
Defined.

End ExampleProgram.

(** * The further properties at concrete guards and owners *)

Section UseExamples.
Import Bound Lock Example.

Lemma construct_then_access_witness :
  operator_star (T:=Z) hasher ∈
    [operator_star (T:=Z) hasher; operator_arrow (T:=Z) hasher;
     operator_star_const (T:=Z) hasher; operator_arrow_const (T:=Z) hasher] ∧
  ∃ g σ1,
    make_thread_bound 42%Z 0 ∅ = Done (g, σ1) ∧
    (∅ : gmap addr (ThreadBound Z)) !! g = None ∧
    σ1 = <[g := mkThreadBound 42%Z (id_of 0)]> ∅ ∧
    (r ← operator_star (T:=Z) hasher g; read r) 0 σ1 = Done (42%Z, σ1) ∧
    ∀ y, y ≠ 0 →
      operator_star (T:=Z) hasher g y σ1 =
        Panic (violation_message (hasher (id_of 0)) (hasher (id_of y))).
Proof.
  split; [repeat constructor|].
  apply (construct_then_access hasher 42%Z 0 ∅ (operator_star (T:=Z) hasher)).
  repeat constructor.
Defined.

Lemma deferred_binds_on_first_access_witness :
  (operator_arrow (T:=Z) hasher ∈
     [operator_star (T:=Z) hasher; operator_arrow (T:=Z) hasher;
      operator_star_const (T:=Z) hasher; operator_arrow_const (T:=Z) hasher] ∧
   operator_star_const (T:=Z) hasher ∈
     [operator_star (T:=Z) hasher; operator_arrow (T:=Z) hasher;
      operator_star_const (T:=Z) hasher; operator_arrow_const (T:=Z) hasher]) ∧
  ∃ g σ1 σ2,
    make_thread_bound_defer 42%Z 0 ∅ = Done (g, σ1) ∧
    (∅ : gmap addr (ThreadBound Z)) !! g = None ∧
    (∀ t', is_unbound g t' σ1 = Done (true, σ1)) ∧
    (r ← operator_arrow (T:=Z) hasher g; read r) 1 σ1 = Done (42%Z, σ2) ∧
    get_owner_id g 1 σ2 = Done (id_of 1, σ2) ∧
    (r ← operator_star_const (T:=Z) hasher g; read r) 1 σ2 = Done (42%Z, σ2) ∧
    ∀ y, y ≠ 1 →
      operator_star_const (T:=Z) hasher g y σ2 =
        Panic (violation_message (hasher (id_of 1)) (hasher (id_of y))).
Proof.
  split; [split; repeat constructor|].
  apply (deferred_binds_on_first_access hasher 42%Z 0 1 ∅
           (operator_arrow (T:=Z) hasher) (operator_star_const (T:=Z) hasher));
    repeat constructor.
Defined.

Lemma access_changes_only_the_owner_witness :
  (operator_star (T:=Z) hasher ∈
     [operator_star (T:=Z) hasher; operator_arrow (T:=Z) hasher;
      operator_star_const (T:=Z) hasher; operator_arrow_const (T:=Z) hasher] ∧
   deferred !! 0 = Some (mkThreadBound 42%Z not_a_thread) ∧
   operator_star (T:=Z) hasher 0 3 deferred =
     Done (0, <[0 := mkThreadBound 42%Z (id_of 3)]> deferred)) ∧
  (0 = 0 ∧
   (∀ a', a' ≠ 0 →
      <[0 := mkThreadBound 42%Z (id_of 3)]> deferred !! a' = deferred !! a') ∧
   <[0 := mkThreadBound 42%Z (id_of 3)]> deferred !! 0 =
     Some (mkThreadBound 42%Z (id_of 3)) ∧
   (not_a_thread ≠ unbound →
      <[0 := mkThreadBound 42%Z (id_of 3)]> deferred = deferred) ∧
   (∀ t', is_unbound 0 t' (<[0 := mkThreadBound 42%Z (id_of 3)]> deferred) =
            Done (false, <[0 := mkThreadBound 42%Z (id_of 3)]> deferred))).
Proof.
  split; [split_and!; [repeat constructor|reflexivity|reflexivity]|].
  apply (access_changes_only_the_owner hasher (operator_star (T:=Z) hasher) 3 deferred 0
           (mkThreadBound 42%Z not_a_thread) 0
           (<[0 := mkThreadBound 42%Z (id_of 3)]> deferred));
    [repeat constructor|reflexivity|reflexivity].
Defined.

Lemma moved_from_guard_rebinds_witness :
  (operator_star (T:=Z) hasher ∈
     [operator_star (T:=Z) hasher; operator_arrow (T:=Z) hasher;
      operator_star_const (T:=Z) hasher; operator_arrow_const (T:=Z) hasher] ∧
   bound_to_0 !! 0 = Some (mkThreadBound 42%Z (id_of 0))) ∧
  ∃ n σ1,
    move_ctor 0 1 bound_to_0 = Done (n, σ1) ∧
    (r ← operator_star (T:=Z) hasher 0; read r) 2 σ1 =
      Done (moved_from 42%Z, <[0 := mkThreadBound (moved_from 42%Z) (id_of 2)]> σ1).
Proof.
  split; [split; [repeat constructor|reflexivity]|].
  apply (moved_from_guard_rebinds hasher (operator_star (T:=Z) hasher) 1 bound_to_0 0
           (mkThreadBound 42%Z (id_of 0)) 2);
    [repeat constructor|reflexivity].
Defined.

Lemma move_hands_over_witness :
  (operator_star (T:=Z) hasher ∈
     [operator_star (T:=Z) hasher; operator_arrow (T:=Z) hasher;
      operator_star_const (T:=Z) hasher; operator_arrow_const (T:=Z) hasher] ∧
   bound_to_0 !! 0 = Some (mkThreadBound 42%Z (id_of 0)) ∧ 0 ≠ 1) ∧
  ∃ n σ1,
    move_ctor 0 1 bound_to_0 = Done (n, σ1) ∧
    (r ← operator_star (T:=Z) hasher n; read r) 1 σ1 = Done (42%Z, σ1) ∧
    operator_star (T:=Z) hasher n 0 σ1 =
      Panic (violation_message (hasher (id_of 1)) (hasher (id_of 0))).
Proof.
  split; [split_and!; [repeat constructor|reflexivity|discriminate]|].
  apply (move_hands_over hasher (operator_star (T:=Z) hasher) 0 1 bound_to_0 0
           (mkThreadBound 42%Z (id_of 0)));
    [repeat constructor|reflexivity|reflexivity|discriminate].
Defined.

Lemma copy_belongs_to_copier_witness :
  (operator_star (T:=Z) hasher ∈
     [operator_star (T:=Z) hasher; operator_arrow (T:=Z) hasher;
      operator_star_const (T:=Z) hasher; operator_arrow_const (T:=Z) hasher] ∧
   bound_to_0 !! 0 = Some (mkThreadBound 42%Z (id_of 0)) ∧ 0 ≠ 1) ∧
  ∃ n σ1,
    copy_ctor 0 1 bound_to_0 = Done (n, σ1) ∧
    (r ← operator_star (T:=Z) hasher n; read r) 1 σ1 = Done (42%Z, σ1) ∧
    operator_star (T:=Z) hasher n 0 σ1 =
      Panic (violation_message (hasher (id_of 1)) (hasher (id_of 0))) ∧
    (r ← operator_star (T:=Z) hasher 0; read r) 0 σ1 = Done (42%Z, σ1) ∧
    operator_star (T:=Z) hasher 0 1 σ1 =
      Panic (violation_message (hasher (id_of 0)) (hasher (id_of 1))).
Proof.
  split; [split_and!; [repeat constructor|reflexivity|discriminate]|].
  apply (copy_belongs_to_copier hasher (operator_star (T:=Z) hasher) 0 1 bound_to_0 0
           (mkThreadBound 42%Z (id_of 0)));
    [repeat constructor|reflexivity|reflexivity|discriminate].
Defined.

Lemma copies_are_independent_witness :
  bound_to_0 !! 0 = Some (mkThreadBound 42%Z (id_of 0)) ∧
  ∃ n σ1,
    copy_ctor 0 1 bound_to_0 = Done (n, σ1) ∧
    (write 0 7%Z;; read n) 0 σ1 =
      Done (42%Z, <[0 := mkThreadBound 7%Z (id_of 0)]> σ1) ∧
    ∃ σ2, (write n 7%Z;; read 0) 0 σ1 = Done (42%Z, σ2) ∧
          object <$> σ2 !! n = Some 7%Z.
Proof.
  split; [reflexivity|].
  apply (copies_are_independent 1 bound_to_0 0 (mkThreadBound 42%Z (id_of 0)) 7%Z 0).
  reflexivity.
Defined.

Lemma handed_over_owner : is_Some (owners handed_over !! 0).
Proof. by eexists. Qed.

Lemma lock_waits_while_guard_alive_witness :
  (initial one_owner ∧ exec one_owner hand_over handed_over ∧
   is_Some (owners handed_over !! 0)) ∧
  (Synced_lock 0 3 handed_over = None ↔
   ∃ g t', guards handed_over !! g = Some (t', mkLocked 0 0)).
Proof.
  split; [split_and!; [apply one_owner_initial|apply hand_over_exec
                      |apply handed_over_owner]|].
  apply (lock_waits_while_guard_alive one_owner hand_over handed_over 0 3).
  - apply one_owner_initial.
  - apply hand_over_exec.
  - apply handed_over_owner.
Defined.

Lemma guard_release_unconditional_witness :
  (initial one_owner ∧ exec one_owner hand_over handed_over ∧
   guards handed_over !! 0 = Some (2, mkLocked 0 0)) ∧
  ∃ w',
    Locked_dtor 0 handed_over = Some w' ∧
    guards w' !! 0 = None ∧
    live_guards 0 w' = ∅ ∧
    read_ref 0 w' = read_ref 0 handed_over ∧
    ∀ t', is_Some (Synced_lock 0 t' w').
Proof.
  split; [split_and!; [apply one_owner_initial|apply hand_over_exec|reflexivity]|].
  apply (guard_release_unconditional one_owner hand_over handed_over 0 2
           (mkLocked 0 0)).
  - apply one_owner_initial.
  - apply hand_over_exec.
  - reflexivity.
Defined.

End UseExamples.
